(** * Verification model of the multithread_stl library: [mt::thread_pool],
    [mt::sort] and [mt::unique] (src/thread_pool.hpp, src/sort.hpp,
    src/unique.hpp).

    Conventions of the model.
    - A range [[begin, end)] is the list of its elements; iterators are
      [nat] offsets from [begin].
    - [size_t] arithmetic is [N] with its wrap-around modulo 2^64 written out
      where the source can overflow; a division by zero or an access outside
      a range is undefined behaviour of C++ and is modelled as [None].
    - The standard algorithms the source calls ([std::partition],
      [std::sort], [std::unique], [std::copy]) are modelled either by their
      contract from the C++ standard (as section variables with hypotheses)
      or by the libstdc++ algorithm. *)

From Stdlib Require Import List Arith Lia Bool NArith Permutation Relations.
From Stdlib Require Import Sorting.Sorted Sorting.Mergesort.
Import ListNotations.

(* ------------------------------------------------------------------ *)
(** ** [mt::sort] (src/sort.hpp) *)

Module Sort.

(** [size_t] is 64 bits wide. *)
Definition size_max : N := 2 ^ 64.

(** Division of [size_t] values; dividing by zero is undefined behaviour. *)
Definition div_size (a b : N) : option N :=
  if (b =? 0)%N then None else Some (a / b)%N.

(** [size_t chunk_size = std::distance(begin, end) / (threads_amount * 8);]
    The product is computed in [size_t] and wraps. *)
Definition chunk_size_of (n threads_amount : N) : option N :=
  div_size n ((threads_amount * 8) mod size_max).

(** Executable instances of the standard algorithms on [nat], for running
    the model: a stable [std::partition] and a merge sort. *)
Definition nat_partition (f : nat -> bool) (l : list nat) : list nat * nat :=
  (filter f l ++ filter (fun x => negb (f x)) l, length (filter f l)).

Definition nat_sort : list nat -> list nat := NatSort.sort.

Section QuickSort.

Context {A : Type}.

(** The comparison functor [cmp]. *)
Variable cmp : A -> A -> bool.

(** [std::partition(first, last, pred)]: returns the new content of the range
    and the offset of the returned iterator (first element of the second
    group). Its contract is stated by [partition_perm], [partition_true],
    [partition_false] below. *)
Variable std_partition : (A -> bool) -> list A -> list A * nat.

(** [std::sort(first, last, cmp)]: contract [sort_perm], [sort_sorted]. *)
Variable std_sort : list A -> list A.

(** A range is sorted in the sense of [std::sort] when [cmp( *(i+1), *i)] is
    false for every [i]. *)
Fixpoint nondecreasing (l : list A) : bool :=
  match l with
  | a :: ((b :: _) as t) => negb (cmp b a) && nondecreasing t
  | _ => true
  end.

(** A segment of the array during sorting: the range of a task still in the
    pool ([Pending]), or a range no task will touch again ([Done]). *)
Inductive seg : Type :=
| Pending (l : list A)
| Done (l : list A).

Definition seg_items (s : seg) : list A :=
  match s with Pending l => l | Done l => l end.

(** The whole array is the concatenation of its segments. *)
Definition contents (ss : list seg) : list A := concat (map seg_items ss).

(** The body of the lambda [quick_sort] applied to the range [l]: the
    segments that replace [l] in the array. The two [pool.push] calls become
    the two [Pending] segments. *)
Definition quick_sort (chunk_size : N) (l : list A) : list seg :=
  let sz := length l in
  if sz <=? 1 then [Done l]
  else if (chunk_size <? N.of_nat sz)%N then
    match l with
    | [] => [Done l]
    | x :: _ =>
      let pivot := nth (sz / 2) l x in
      let '(l1, middle1) := std_partition (fun em => cmp em pivot) l in
      let '(l2, middle2) :=
        std_partition (fun em => negb (cmp pivot em)) (skipn middle1 l1) in
      [Pending (firstn middle1 l1); Done (firstn middle2 l2);
       Pending (skipn middle2 l2)]
    end
  else [Done (std_sort l)].

(** The pool runs the pending tasks in any order: a step picks any pending
    task and runs its body. Tasks work on disjoint ranges. *)
Inductive step (chunk_size : N) : list seg -> list seg -> Prop :=
| step_task : forall pre l post,
    step chunk_size (pre ++ Pending l :: post)
                    (pre ++ quick_sort chunk_size l ++ post).

Definition is_pending (s : seg) : bool :=
  match s with Pending _ => true | Done _ => false end.

Definition no_pending (ss : list seg) : bool := negb (existsb is_pending ss).

(** A deterministic schedule, used to run the model: leftmost task first. *)
Fixpoint first_pending (ss : list seg) : option (list seg * list A * list seg) :=
  match ss with
  | [] => None
  | Pending l :: r => Some ([], l, r)
  | s :: r =>
    match first_pending r with
    | Some (pre, l, post) => Some (s :: pre, l, post)
    | None => None
    end
  end.

Fixpoint drive (chunk_size : N) (fuel : nat) (ss : list seg) : option (list seg) :=
  match first_pending ss with
  | None => Some ss
  | Some (pre, l, post) =>
    match fuel with
    | 0 => None
    | S f => drive chunk_size f (pre ++ quick_sort chunk_size l ++ post)
    end
  end.

(** Measure of the outstanding work of the pool. *)
Definition seg_weight (s : seg) : nat :=
  match s with Pending l => length l * length l + 1 | Done _ => 0 end.

Definition weight (ss : list seg) : nat := list_sum (map seg_weight ss).

(** The first call of [mt::sort] on [S] (the static [quick_sort] captures this
    very call's [chunk_size], [pool] and [cmp]): the root task is pushed and
    the pool runs until no task is left. This is the run in which the pool
    destructor's [wait()] returns only once the tasks are done and no worker
    touches the pool after it is destroyed; [Pool] below models the pool's
    own interleavings, in which neither is guaranteed ([wait()] may return
    on a spurious wake-up, a late worker may lock the destroyed mutex). *)
Definition sort_run (S : list A) (threads_amount : N) : option (list A) :=
  match chunk_size_of (N.of_nat (length S)) threads_amount with
  | None => None
  | Some cs =>
    match drive cs (length S * length S + 2) [Pending S] with
    | Some ss => Some (contents ss)
    | None => None
    end
  end.

(** [static const std::function<...> quick_sort = [&chunk_size, &pool, &cmp]...]
    is initialised once, by the first call, and keeps references to that
    call's local variables. [static] is [None] before the first call and
    [Some f] once call number [f] has initialised it; [frame] numbers the
    current call. In a later call the root task reads [chunk_size] through a
    dangling reference as soon as the range has two elements: undefined
    behaviour. *)
Definition sort_call (static : option nat) (frame : nat) (S : list A)
    (threads_amount : N) : option nat * option (list A) :=
  match chunk_size_of (N.of_nat (length S)) threads_amount with
  | None => (static, None)
  | Some _ =>
    let owner := match static with Some f => f | None => frame end in
    (Some owner,
     if length S <=? 1 then Some S
     else if owner =? frame then sort_run S threads_amount
     else None)
  end.

(** [mt::sort] called twice in one program on ranges of the same type, as in
    [sort(sort(S))]. *)
Definition sort_twice (S : list A) (threads_amount : N) : option (list A) :=
  let '(st, r1) := sort_call None 0 S threads_amount in
  match r1 with
  | None => None
  | Some S1 => snd (sort_call st 1 S1 threads_amount)
  end.


(** *** Proofs *)

(** [cmp] is a strict weak order, as [std::sort] requires of [Compare]. *)
Hypothesis cmp_irrefl : forall x, cmp x x = false.
Hypothesis cmp_trans :
  forall x y z, cmp x y = true -> cmp y z = true -> cmp x z = true.
Hypothesis cmp_incomp_trans :
  forall x y z, cmp x y = false -> cmp y x = false ->
                cmp y z = false -> cmp z y = false -> cmp x z = false.

(** Contract of [std::partition]: the range is permuted, the elements before
    the returned iterator satisfy the predicate and the others do not. *)
Hypothesis partition_perm : forall f l, Permutation (fst (std_partition f l)) l.
Hypothesis partition_true : forall f l x,
  In x (firstn (snd (std_partition f l)) (fst (std_partition f l))) -> f x = true.
Hypothesis partition_false : forall f l x,
  In x (skipn (snd (std_partition f l)) (fst (std_partition f l))) -> f x = false.

(** Contract of [std::sort]. *)
Hypothesis sort_perm : forall l, Permutation (std_sort l) l.
Hypothesis sort_sorted : forall l, nondecreasing (std_sort l) = true.

Definition seg_ok (s : seg) : Prop :=
  match s with Done l => nondecreasing l = true | Pending _ => True end.

(** Every element of [s] is not ordered after any element of [t]. *)
Definition seg_le (s t : seg) : Prop :=
  forall x y, In x (seg_items s) -> In y (seg_items t) -> cmp y x = false.

(** Invariant of the pool's work on the array whose initial content is [S]. *)
Definition sort_inv (S : list A) (ss : list seg) : Prop :=
  Permutation (contents ss) S /\ Forall seg_ok ss /\ ForallOrdPairs seg_le ss.

Lemma contents_app : forall a b, contents (a ++ b) = contents a ++ contents b.
Proof. intros. unfold contents. now rewrite map_app, concat_app. Qed.

Lemma contents_cons : forall s r, contents (s :: r) = seg_items s ++ contents r.
Proof. reflexivity. Qed.

Lemma nondecreasing_pairwise : forall l,
  (forall x y, In x l -> In y l -> cmp y x = false) -> nondecreasing l = true.
Proof.
  induction l as [|a t IH]; intros H; [reflexivity|].
  destruct t as [|b t]; [reflexivity|].
  change (negb (cmp b a) && nondecreasing (b :: t) = true).
  rewrite (H a b) by (simpl; auto). simpl negb; rewrite andb_true_l.
  apply IH. intros x y Hx Hy. apply H; simpl; auto.
Qed.

Lemma nondecreasing_cons : forall a l,
  nondecreasing l = true -> (forall y, In y l -> cmp y a = false) ->
  nondecreasing (a :: l) = true.
Proof.
  intros a [|b t] Hl H; [reflexivity|].
  change (negb (cmp b a) && nondecreasing (b :: t) = true).
  rewrite H by (simpl; auto). exact Hl.
Qed.

Lemma nondecreasing_tail : forall a l,
  nondecreasing (a :: l) = true -> nondecreasing l = true.
Proof.
  intros a [|b t] H; [reflexivity|].
  apply andb_prop in H. tauto.
Qed.

(** Under a strict weak order, sortedness of adjacent pairs gives sortedness
    of all ordered pairs. *)
Lemma nondecreasing_In : forall a l y,
  nondecreasing (a :: l) = true -> In y l -> cmp y a = false.
Proof.
  intros a l; revert a. induction l as [|b t IH]; intros a y H Hy; [destruct Hy|].
  apply andb_prop in H as [Hba Ht]. apply negb_true_iff in Hba.
  destruct Hy as [<-|Hy]; [exact Hba|].
  specialize (IH b y Ht Hy).
  destruct (cmp y a) eqn:Eya; [|reflexivity].
  destruct (cmp a b) eqn:Eab.
  - rewrite (cmp_trans y a b Eya Eab) in IH. discriminate.
  - destruct (cmp b y) eqn:Eby.
    + rewrite (cmp_trans b y a Eby Eya) in Hba. discriminate.
    + rewrite (cmp_incomp_trans y b a IH Eby Hba Eab) in Eya. discriminate.
Qed.

Lemma nondecreasing_app : forall a b,
  nondecreasing a = true -> nondecreasing b = true ->
  (forall x y, In x a -> In y b -> cmp y x = false) ->
  nondecreasing (a ++ b) = true.
Proof.
  induction a as [|x a IH]; intros b Ha Hb H; [exact Hb|].
  simpl. apply nondecreasing_cons.
  - apply IH; [eapply nondecreasing_tail; eauto|exact Hb|].
    intros; apply H; simpl; auto.
  - intros y Hy. apply in_app_or in Hy as [Hy|Hy].
    + eapply nondecreasing_In; eauto.
    + apply H; simpl; auto.
Qed.

Lemma ForallOrdPairs_app_inv : forall (R : seg -> seg -> Prop) a b,
  ForallOrdPairs R (a ++ b) ->
  ForallOrdPairs R a /\ ForallOrdPairs R b /\
  (forall x y, In x a -> In y b -> R x y).
Proof.
  induction a as [|s a IH]; intros b H; simpl in *.
  - split; [constructor|split; [exact H|intros _ _ []]].
  - inversion H as [|? ? Hs Hr]; subst. apply IH in Hr as (Ha & Hb & Hab).
    rewrite Forall_app in Hs. destruct Hs as [Hs1 Hs2].
    split; [constructor; auto|split; [exact Hb|]].
    intros x y [<-|Hx] Hy; [|auto]. rewrite Forall_forall in Hs2. auto.
Qed.

Lemma ForallOrdPairs_app : forall (R : seg -> seg -> Prop) a b,
  ForallOrdPairs R a -> ForallOrdPairs R b ->
  (forall x y, In x a -> In y b -> R x y) ->
  ForallOrdPairs R (a ++ b).
Proof.
  induction a as [|s a IH]; intros b Ha Hb H; simpl; auto.
  inversion Ha as [|? ? Hs Hr]; subst. constructor.
  - apply Forall_app. split; auto. apply Forall_forall. intros; apply H; simpl; auto.
  - apply IH; auto. intros; apply H; simpl; auto.
Qed.

Lemma In_contents : forall ss s z,
  In s ss -> In z (seg_items s) -> In z (contents ss).
Proof.
  intros ss s z Hs Hz. unfold contents. apply in_concat.
  exists (seg_items s). split; [apply in_map; exact Hs|exact Hz].
Qed.

Lemma contents_In : forall ss z,
  In z (contents ss) -> exists s, In s ss /\ In z (seg_items s).
Proof.
  intros ss z Hz. unfold contents in Hz. apply in_concat in Hz as (y & Hy & Hz).
  apply in_map_iff in Hy as (s & <- & Hs). eauto.
Qed.

Lemma nondecreasing_short : forall l, length l <= 1 -> nondecreasing l = true.
Proof. intros [|a [|b t]] H; simpl in *; auto; lia. Qed.

Lemma pivot_index : forall (l : list A), 1 < length l -> length l / 2 < length l.
Proof. intros l H. apply Nat.div_lt; lia. Qed.

(** The three sections produced by the two [std::partition] passes around
    the pivot [*std::next(begin, std::distance(begin, end) / 2)]. *)
Lemma quick_sort_partition : forall cs l d,
  1 < length l -> (cs < N.of_nat (length l))%N ->
  exists lo mid hi,
    quick_sort cs l = [Pending lo; Done mid; Pending hi] /\
    (forall x, In x lo -> cmp x (nth (length l / 2) l d) = true) /\
    (forall x, In x mid -> cmp x (nth (length l / 2) l d) = false /\
                          cmp (nth (length l / 2) l d) x = false) /\
    (forall x, In x hi -> cmp (nth (length l / 2) l d) x = true) /\
    Permutation (lo ++ mid ++ hi) l.
Proof.
  intros cs l d H1 H2. pose proof (pivot_index l H1) as Hix. unfold quick_sort.
  replace (length l <=? 1) with false by (symmetry; apply Nat.leb_gt; lia).
  replace (cs <? N.of_nat (length l))%N with true by (symmetry; apply N.ltb_lt; lia).
  destruct l as [|x l']; [simpl in H1; lia|].
  replace (nth (length (x :: l') / 2) (x :: l') d)
    with (nth (length (x :: l') / 2) (x :: l') x) by (apply nth_indep; exact Hix).
  set (pivot := nth (length (x :: l') / 2) (x :: l') x).
  destruct (std_partition (fun em => cmp em pivot) (x :: l')) as [l1 m1] eqn:P1.
  destruct (std_partition (fun em => negb (cmp pivot em)) (skipn m1 l1))
    as [l2 m2] eqn:P2.
  pose proof (partition_perm (fun em => cmp em pivot) (x :: l')) as Hp1.
  pose proof (partition_true (fun em => cmp em pivot) (x :: l')) as Ht1.
  pose proof (partition_false (fun em => cmp em pivot) (x :: l')) as Hf1.
  pose proof (partition_perm (fun em => negb (cmp pivot em)) (skipn m1 l1)) as Hp2.
  pose proof (partition_true (fun em => negb (cmp pivot em)) (skipn m1 l1)) as Ht2.
  pose proof (partition_false (fun em => negb (cmp pivot em)) (skipn m1 l1)) as Hf2.
  rewrite P1 in Hp1, Ht1, Hf1. rewrite P2 in Hp2, Ht2, Hf2. simpl fst in *; simpl snd in *.
  exists (firstn m1 l1), (firstn m2 l2), (skipn m2 l2).
  split; [reflexivity|]. split; [|split; [|split]].
  - intros z Hz. exact (Ht1 z Hz).
  - intros z Hz. split.
    + apply Hf1. eapply Permutation_in; [exact Hp2|].
      rewrite <- (firstn_skipn m2 l2). apply in_or_app. now left.
    + apply negb_true_iff. exact (Ht2 z Hz).
  - intros z Hz. apply negb_false_iff. exact (Hf2 z Hz).
  - rewrite firstn_skipn.
    transitivity (firstn m1 l1 ++ skipn m1 l1); [|rewrite firstn_skipn; exact Hp1].
    apply Permutation_app_head. exact Hp2.
Qed.

Lemma quick_sort_cases : forall cs l,
  (exists l', quick_sort cs l = [Done l'] /\ Permutation l' l /\
              nondecreasing l' = true) \/
  (1 < length l /\ (cs < N.of_nat (length l))%N).
Proof.
  intros cs l. unfold quick_sort.
  destruct (length l <=? 1) eqn:E1.
  - left. exists l. split; [reflexivity|split; [apply Permutation_refl|]].
    apply nondecreasing_short. apply Nat.leb_le. exact E1.
  - apply Nat.leb_gt in E1.
    destruct (cs <? N.of_nat (length l))%N eqn:E2.
    + right. split; [lia|]. apply N.ltb_lt. exact E2.
    + left. destruct l as [|x l']; [simpl in E1; lia|].
      exists (std_sort (x :: l')). auto.
Qed.

Lemma quick_sort_spec : forall cs l,
  Permutation (contents (quick_sort cs l)) l /\
  Forall seg_ok (quick_sort cs l) /\ ForallOrdPairs seg_le (quick_sort cs l).
Proof.
  intros cs l. destruct (quick_sort_cases cs l) as [(l' & -> & Hp & Hs)|[H1 H2]].
  - split; [unfold contents; simpl; rewrite app_nil_r; exact Hp|]. split.
    + constructor; [exact Hs|constructor].
    + constructor; constructor.
  - destruct l as [|d l0]; [simpl in H1; lia|].
    destruct (quick_sort_partition cs (d :: l0) d H1 H2)
      as (lo & mid & hi & -> & Hlo & Hmid & Hhi & Hperm).
    set (pivot := nth (length (d :: l0) / 2) (d :: l0) d) in *.
    split; [|split].
    + unfold contents; simpl; rewrite app_nil_r; exact Hperm.
    + constructor; [exact I|constructor; [|constructor; [exact I|constructor]]].
      simpl. apply nondecreasing_pairwise. intros x y Hx Hy.
      destruct (Hmid x Hx), (Hmid y Hy).
      apply (cmp_incomp_trans y pivot x); assumption.
    + constructor; [|constructor; [|constructor; [|constructor]]].
      * constructor; [|constructor; [|constructor]]; intros x y Hx Hy; simpl in Hx, Hy.
        -- specialize (Hlo x Hx). destruct (Hmid y Hy) as [Hy1 _].
           destruct (cmp y x) eqn:E; [|reflexivity].
           rewrite (cmp_trans _ _ _ E Hlo) in Hy1. discriminate.
        -- specialize (Hlo x Hx). specialize (Hhi y Hy).
           destruct (cmp y x) eqn:E; [|reflexivity].
           pose proof (cmp_trans _ _ _ (cmp_trans _ _ _ Hhi E) Hlo) as Hpp.
           rewrite cmp_irrefl in Hpp. discriminate.
      * constructor; [|constructor]. intros x y Hx Hy; simpl in Hx, Hy.
        destruct (Hmid x Hx) as [_ Hx2]. specialize (Hhi y Hy).
        destruct (cmp y x) eqn:E; [|reflexivity].
        rewrite (cmp_trans _ _ _ Hhi E) in Hx2. discriminate.
      * constructor.
Qed.

Lemma step_inv : forall cs S ss ss',
  step cs ss ss' -> sort_inv S ss -> sort_inv S ss'.
Proof.
  intros cs S ss ss' Hst (Hp & Hok & Hord). inversion Hst as [pre l post]; subst.
  destruct (quick_sort_spec cs l) as (Hp' & Hok' & Hord').
  set (r := quick_sort cs l) in *.
  assert (Hsub : forall s z, In s r -> In z (seg_items s) -> In z l).
  { intros s z Hs Hz. eapply Permutation_in; [exact Hp'|]. eapply In_contents; eauto. }
  apply ForallOrdPairs_app_inv in Hord as (Hpre & Hrest & Hcross).
  inversion Hrest as [|? ? Hl Hpost]; subst.
  rewrite Forall_forall in Hl.
  split; [|split].
  - rewrite contents_app, contents_app. rewrite contents_app, contents_cons in Hp.
    rewrite <- Hp. apply Permutation_app_head. apply Permutation_app_tail. exact Hp'.
  - rewrite Forall_app in Hok |- *. destruct Hok as [Hok1 Hok2].
    inversion Hok2; subst. rewrite Forall_app. auto.
  - apply ForallOrdPairs_app; [exact Hpre| |].
    + apply ForallOrdPairs_app; [exact Hord'|exact Hpost|].
      intros s t Hs Ht x y Hx Hy. apply (Hl t Ht x y); [|exact Hy].
      exact (Hsub s x Hs Hx).
    + intros s t Hs Ht x y Hx Hy. apply in_app_or in Ht as [Ht|Ht].
      * apply (Hcross s (Pending l) Hs (or_introl eq_refl) x y Hx).
        exact (Hsub t y Ht Hy).
      * exact (Hcross s t Hs (or_intror Ht) x y Hx Hy).
Qed.

Lemma final_sorted : forall ss,
  no_pending ss = true -> Forall seg_ok ss -> ForallOrdPairs seg_le ss ->
  nondecreasing (contents ss) = true.
Proof.
  induction ss as [|s r IH]; intros Hnp Hok Hord; [reflexivity|].
  destruct s as [l|l]; [discriminate|].
  inversion Hok as [|? ? Hs Hr]; subst. inversion Hord as [|? ? Hl Hrr]; subst.
  rewrite contents_cons. apply nondecreasing_app; [exact Hs|apply IH; auto|].
  intros x y Hx Hy. apply contents_In in Hy as (t & Ht & Hy).
  rewrite Forall_forall in Hl. exact (Hl t Ht x y Hx Hy).
Qed.

(** Any schedule of the pool: once no task is left, the array is a sorted
    permutation of the input. *)
Lemma sort_tasks_correct : forall cs S ss,
  clos_refl_trans _ (step cs) [Pending S] ss -> no_pending ss = true ->
  Permutation (contents ss) S /\ nondecreasing (contents ss) = true.
Proof.
  intros cs S ss Hrt Hnp.
  assert (Hinv : sort_inv S ss).
  { apply clos_rt_rt1n in Hrt.
    assert (H0 : sort_inv S [Pending S]).
    { split; [unfold contents; simpl; rewrite app_nil_r; apply Permutation_refl|].
      split; constructor; constructor. }
    clear Hnp. revert H0. induction Hrt as [|x y z Hxy Hyz IH]; intros H0; [exact H0|].
    apply IH. eapply step_inv; eauto. }
  destruct Hinv as (Hp & Hok & Hord). split; [exact Hp|].
  apply final_sorted; auto.
Qed.

(** In every partition step the middle section holds the pivot, so both
    recursive ranges are strictly shorter. *)
Lemma quick_sort_three : forall cs l d,
  1 < length l -> (cs < N.of_nat (length l))%N ->
  exists lo mid hi,
    quick_sort cs l = [Pending lo; Done mid; Pending hi] /\
    In (nth (length l / 2) l d) mid /\
    length lo < length l /\ length hi < length l /\
    length lo + length mid + length hi = length l.
Proof.
  intros cs l d H1 H2.
  destruct (quick_sort_partition cs l d H1 H2)
    as (lo & mid & hi & Heq & Hlo & Hmid & Hhi & Hperm).
  set (pivot := nth (length l / 2) l d) in *.
  assert (Hin : In pivot mid).
  { assert (Hl : In pivot l) by (apply nth_In; apply pivot_index; exact H1).
    apply (Permutation_in _ (Permutation_sym Hperm)) in Hl.
    apply in_app_or in Hl as [Hl|Hl].
    - specialize (Hlo pivot Hl). rewrite cmp_irrefl in Hlo. discriminate.
    - apply in_app_or in Hl as [Hl|Hl]; [exact Hl|].
      specialize (Hhi pivot Hl). rewrite cmp_irrefl in Hhi. discriminate. }
  pose proof (Permutation_length Hperm) as Hlen. rewrite !length_app in Hlen.
  destruct mid as [|m mid']; [destruct Hin|]. simpl in Hlen.
  exists lo, (m :: mid'), hi. repeat split; auto; simpl; lia.
Qed.

Lemma weight_app : forall a b, weight (a ++ b) = weight a + weight b.
Proof. intros. unfold weight. now rewrite map_app, list_sum_app. Qed.

Lemma quick_sort_weight : forall cs l,
  weight (quick_sort cs l) < length l * length l + 1.
Proof.
  intros cs l. destruct (quick_sort_cases cs l) as [(l' & -> & _ & _)|[H1 H2]].
  - unfold weight; simpl; lia.
  - destruct l as [|d l0]; [simpl in H1; lia|].
    destruct (quick_sort_three cs (d :: l0) d H1 H2)
      as (lo & mid & hi & -> & Hin & Hlo & Hhi & Hsum).
    assert (Hm : 1 <= length mid) by (destruct mid; [destruct Hin|simpl; lia]).
    change (weight [Pending lo; Done mid; Pending hi])
      with (length lo * length lo + 1 + (0 + (length hi * length hi + 1 + 0))).
    clear H2 Hin. revert H1 Hlo Hhi Hsum Hm.
    generalize (length (d :: l0)) (length lo) (length mid) (length hi).
    intros n a m b H1 Ha Hb Hs Hm.
    assert (a + b <= n - 1) by lia.
    assert (a * a + b * b <= (a + b) * (a + b)) by nia.
    assert ((a + b) * (a + b) <= (n - 1) * (n - 1)) by (apply Nat.mul_le_mono; lia).
    nia.
Qed.

Lemma step_weight : forall cs ss ss', step cs ss ss' -> weight ss' < weight ss.
Proof.
  intros cs ss ss' H. inversion H as [pre l post]; subst.
  rewrite !weight_app. pose proof (quick_sort_weight cs l).
  change (weight (Pending l :: post))
    with (length l * length l + 1 + weight post). lia.
Qed.

Lemma first_pending_some : forall ss pre l post,
  first_pending ss = Some (pre, l, post) -> ss = pre ++ Pending l :: post.
Proof.
  induction ss as [|s r IH]; intros pre l post H; [discriminate|].
  destruct s as [l'|l']; simpl in H.
  - now inversion H.
  - destruct (first_pending r) as [[[pre' l''] post']|] eqn:E; [|discriminate].
    inversion H; subst. simpl. f_equal. apply IH. reflexivity.
Qed.

Lemma first_pending_none : forall ss, first_pending ss = None -> no_pending ss = true.
Proof.
  induction ss as [|s r IH]; intros H; [reflexivity|].
  destruct s as [l'|l']; simpl in H; [discriminate|].
  destruct (first_pending r) as [[[pre' l''] post']|] eqn:E; [discriminate|].
  unfold no_pending in *. simpl. apply IH. reflexivity.
Qed.

(** A state with a task left can always make a step. *)
Lemma step_progress : forall cs ss,
  no_pending ss = false -> exists ss', step cs ss ss'.
Proof.
  intros cs ss H. destruct (first_pending ss) as [[[pre l] post]|] eqn:E.
  - apply first_pending_some in E. subst. eexists. constructor.
  - apply first_pending_none in E. congruence.
Qed.

Lemma drive_sound : forall cs f ss ss',
  drive cs f ss = Some ss' ->
  clos_refl_trans _ (step cs) ss ss' /\ no_pending ss' = true.
Proof.
  intros cs f. induction f as [|f IH]; intros ss ss' H; simpl in H;
    destruct (first_pending ss) as [[[pre l] post]|] eqn:E;
    try discriminate.
  - inversion H; subst. split; [apply rt_refl|]. apply first_pending_none; exact E.
  - apply IH in H as [Hrt Hnp]. split; [|exact Hnp].
    apply first_pending_some in E. subst.
    eapply rt_trans; [apply rt_step; constructor|exact Hrt].
  - inversion H; subst. split; [apply rt_refl|]. apply first_pending_none; exact E.
Qed.

Lemma drive_total : forall cs f ss,
  weight ss <= f -> exists ss', drive cs f ss = Some ss'.
Proof.
  intros cs f. induction f as [|f IH]; intros ss Hw; simpl;
    destruct (first_pending ss) as [[[pre l] post]|] eqn:E; eauto.
  - apply first_pending_some in E. subst. rewrite weight_app in Hw.
    unfold weight in Hw; simpl in Hw. lia.
  - apply IH. apply first_pending_some in E. subst.
    pose proof (step_weight cs _ _ (step_task cs pre l post)). lia.
Qed.

(** The first call of [mt::sort] yields a sorted permutation of its input. *)
Lemma sort_run_correct : forall S threads_amount r,
  sort_run S threads_amount = Some r ->
  Permutation r S /\ nondecreasing r = true.
Proof.
  intros S t r H. unfold sort_run in H.
  destruct (chunk_size_of (N.of_nat (length S)) t) as [cs|]; [|discriminate].
  destruct (drive cs (length S * length S + 2) [Pending S]) as [ss|] eqn:E;
    [|discriminate].
  inversion H; subst. apply drive_sound in E as [Hrt Hnp].
  apply sort_tasks_correct with cs; assumption.
Qed.

(** ... and it always finishes unless computing [chunk_size] divides by zero. *)
Lemma sort_run_total : forall S threads_amount,
  chunk_size_of (N.of_nat (length S)) threads_amount <> None ->
  exists r, sort_run S threads_amount = Some r.
Proof.
  intros S t H. unfold sort_run.
  destruct (chunk_size_of (N.of_nat (length S)) t) as [cs|]; [|congruence].
  destruct (drive_total cs (length S * length S + 2) [Pending S]) as [ss E].
  { unfold weight; simpl; lia. }
  rewrite E. eauto.
Qed.

(** Whatever order the pool's threads run the tasks in, the array stays a
    permutation of its initial content, and it is sorted as soon as no task
    is left. *)
Theorem sort_schedule_invariant : forall cs S ss,
  clos_refl_trans _ (step cs) [Pending S] ss ->
  Permutation (contents ss) S /\
  (no_pending ss = true -> nondecreasing (contents ss) = true).
Proof.
  intros cs S ss Hrt.
  assert (Hinv : sort_inv S ss).
  { apply clos_rt_rt1n in Hrt.
    assert (H0 : sort_inv S [Pending S]).
    { split; [unfold contents; simpl; rewrite app_nil_r; apply Permutation_refl|].
      split; constructor; constructor. }
    revert H0. induction Hrt as [|x y z Hxy Hyz IH]; intros H0; [exact H0|].
    apply IH. eapply step_inv; eauto. }
  destruct Hinv as (Hp & Hok & Hord). split; [exact Hp|].
  intros Hnp. apply final_sorted; auto.
Qed.

(** C10: in every partition step of [quick_sort] on a range longer than
    [chunk_size] (and longer than one element), the middle section
    [[middle1, middle2)] contains the pivot, so both pushed ranges
    [[begin, middle1)] and [[middle2, end)] are strictly shorter than the
    parent; hence no schedule of the pool's tasks runs forever (the step
    relation of the task system is well founded). *)
Theorem quick_sort_step_shrinks :
  (forall cs l d, 1 < length l -> (cs < N.of_nat (length l))%N ->
     exists lo mid hi,
       quick_sort cs l = [Pending lo; Done mid; Pending hi] /\
       In (nth (length l / 2) l d) mid /\
       length lo < length l /\ length hi < length l) /\
  (forall cs, well_founded (fun ss' ss => step cs ss ss')).
Proof.
  split.
  - intros cs l d H1 H2.
    destruct (quick_sort_three cs l d H1 H2) as (lo & mid & hi & ? & ? & ? & ? & _).
    exists lo, mid, hi. auto.
  - intros cs. apply (well_founded_lt_compat _ weight).
    intros x y H. exact (step_weight cs _ _ H).
Qed.

End QuickSort.

(** The [nat] instances meet the hypotheses of the proofs. *)
Lemma nat_ltb_irrefl : forall x, Nat.ltb x x = false.
Proof. intros x. apply Nat.ltb_irrefl. Qed.

Lemma nat_ltb_trans : forall x y z,
  Nat.ltb x y = true -> Nat.ltb y z = true -> Nat.ltb x z = true.
Proof. intros x y z. rewrite !Nat.ltb_lt. lia. Qed.

Lemma nat_ltb_incomp_trans : forall x y z,
  Nat.ltb x y = false -> Nat.ltb y x = false ->
  Nat.ltb y z = false -> Nat.ltb z y = false -> Nat.ltb x z = false.
Proof. intros x y z. rewrite !Nat.ltb_ge. lia. Qed.

Lemma nat_partition_perm : forall f l, Permutation (fst (nat_partition f l)) l.
Proof.
  intros f l. unfold nat_partition; simpl.
  induction l as [|a l IH]; simpl; [constructor|].
  destruct (f a); simpl.
  - constructor. exact IH.
  - rewrite <- Permutation_middle. constructor. exact IH.
Qed.

Lemma nat_partition_true : forall f l x,
  In x (firstn (snd (nat_partition f l)) (fst (nat_partition f l))) -> f x = true.
Proof.
  intros f l x. unfold nat_partition; simpl.
  rewrite firstn_app, Nat.sub_diag, firstn_all. simpl. rewrite app_nil_r.
  intros H. apply filter_In in H. tauto.
Qed.

Lemma nat_partition_false : forall f l x,
  In x (skipn (snd (nat_partition f l)) (fst (nat_partition f l))) -> f x = false.
Proof.
  intros f l x. unfold nat_partition; simpl.
  rewrite skipn_app, Nat.sub_diag, skipn_all. simpl.
  intros H. apply filter_In in H as [_ H]. now apply negb_true_iff.
Qed.

Lemma nat_order_leb : forall x y, NatOrder.leb x y = Nat.leb x y.
Proof. induction x as [|x IH]; intros [|y]; simpl; auto. Qed.

Lemma nat_sort_perm : forall l, Permutation (nat_sort l) l.
Proof. intros l. symmetry. apply NatSort.Permuted_sort. Qed.

Lemma nat_sort_sorted : forall l, nondecreasing Nat.ltb (nat_sort l) = true.
Proof.
  intros l0. pose proof (NatSort.LocallySorted_sort l0) as H.
  unfold nat_sort. induction H as [|a|a b l Hl IH Hab]; [reflexivity|reflexivity|].
  change (negb (Nat.ltb b a) && nondecreasing Nat.ltb (b :: l) = true).
  unfold is_true in Hab. rewrite nat_order_leb in Hab. apply Nat.leb_le in Hab.
  replace (Nat.ltb b a) with false by (symmetry; apply Nat.ltb_ge; lia).
  exact IH.
Qed.

Example quick_sort_ex :
  quick_sort Nat.ltb nat_partition nat_sort 0 [3; 1; 2; 3; 0] =
  [Pending [1; 0]; Done [2]; Pending [3; 3]].
Proof. reflexivity. Qed.

Example sort_run_ex :
  sort_run Nat.ltb nat_partition nat_sort [5; 3; 9; 1; 3; 7; 0; 2] 1 =
  Some [0; 1; 2; 3; 3; 5; 7; 9].
Proof. reflexivity. Qed.

Example sort_twice_ex :
  sort_twice Nat.ltb nat_partition nat_sort [2; 1] 1 = None.
Proof. reflexivity. Qed.

Lemma quick_sort_step_shrinks_witness :
  exists lo mid hi,
    quick_sort Nat.ltb nat_partition nat_sort 0 [3; 1; 2] =
      [Pending lo; Done mid; Pending hi] /\
    In (nth (length [3; 1; 2] / 2) [3; 1; 2] 0) mid /\
    length lo < length [3; 1; 2] /\ length hi < length [3; 1; 2].
Proof.
  apply (proj1 (quick_sort_step_shrinks Nat.ltb nat_partition nat_sort
    nat_ltb_irrefl nat_partition_perm nat_partition_true nat_partition_false
    nat_sort_perm nat_sort_sorted)); simpl; lia.
Defined.

(** The leftmost-first schedule on [[3; 1; 2]] with [chunk_size = 0] ends
    with every segment done. *)
Lemma sort_schedule_invariant_witness :
  clos_refl_trans _ (step Nat.ltb nat_partition nat_sort 0) [Pending [3; 1; 2]]
    [Done []; Done [1]; Done []; Done [2]; Done [3]] /\
  Permutation (contents [Done []; Done [1]; Done []; Done [2]; Done [3]]) [3; 1; 2] /\
  (no_pending [Done []; Done [1]; Done []; Done [2]; Done [3]] = true ->
   nondecreasing Nat.ltb (contents [Done []; Done [1]; Done []; Done [2]; Done [3]]) = true).
Proof.
  assert (H : clos_refl_trans _ (step Nat.ltb nat_partition nat_sort 0) [Pending [3; 1; 2]]
                [Done []; Done [1]; Done []; Done [2]; Done [3]])
    by exact (proj1 (drive_sound Nat.ltb nat_partition nat_sort 0 10 [Pending [3; 1; 2]]
                       [Done []; Done [1]; Done []; Done [2]; Done [3]] eq_refl)).
  split; [exact H|].
  apply (sort_schedule_invariant Nat.ltb nat_partition nat_sort
    nat_ltb_irrefl nat_ltb_trans nat_ltb_incomp_trans
    nat_partition_perm nat_partition_true nat_partition_false
    nat_sort_perm nat_sort_sorted 0 [3; 1; 2]).
  exact H.
Defined.

(** C1: [mt::sort] is not correct for every call of a program: after a first
    call (here on [[0]]) has initialised the static [quick_sort], a later call
    with the same iterator and comparator types on the two-element range
    [[2; 1]] reads the first call's dead [chunk_size], [pool] and [cmp]
    (undefined behaviour), although the first call alone yields a sorted
    permutation ([sort_run_correct]). *)
Theorem sort_later_call_undefined :
  sort_call Nat.ltb nat_partition nat_sort None 0 [0] 1 = (Some 0, Some [0]) /\
  sort_run Nat.ltb nat_partition nat_sort [2; 1] 1 = Some [1; 2] /\
  sort_call Nat.ltb nat_partition nat_sort (Some 0) 1 [2; 1] 1 = (Some 0, None).
Proof. split; [|split]; reflexivity. Qed.

(** C9: [sort(sort(S))] is not [sort(S)]: on [S = [2; 1]] with one thread the
    first call sorts, the second call on the sorted result has undefined
    behaviour through the static [quick_sort]'s dangling references. *)
Theorem sort_sort_undefined :
  sort_run Nat.ltb nat_partition nat_sort [2; 1] 1 = Some [1; 2] /\
  sort_twice Nat.ltb nat_partition nat_sort [2; 1] 1 = None.
Proof. split; reflexivity. Qed.

End Sort.

(* ------------------------------------------------------------------ *)
(** ** [mt::unique] (src/unique.hpp) *)

Module Unique.

Section ParallelUnique.

Context {A : Type}.

(** [operator==] of the element type: [std::unique(_begin, _end)] is called
    without a predicate and compares with it. *)
Variable eqA : A -> A -> bool.

(** libstdc++ [std::unique]: each element is compared with the last element
    kept ([*dest == *first]); survivors are move-assigned to the front of
    the range. The elements after the new end are those a move leaves
    behind: for the trivially copyable element types of the tests (a move
    is a copy) they keep their values, which is what [std_unique] writes;
    for other types they are moved-from, and no theorem below reads them
    (they lie past the returned end). *)
Fixpoint unique_from (kept : A) (l : list A) : list A :=
  match l with
  | [] => []
  | x :: r => if eqA kept x then unique_from kept r else x :: unique_from x r
  end.

Definition survivors (l : list A) : list A :=
  match l with [] => [] | x :: r => x :: unique_from x r end.

(** New content of the range and offset of the returned iterator. *)
Definition std_unique (l : list A) : list A * nat :=
  let d := survivors l in (d ++ skipn (length d) l, length d).

(** The elements of [[b, e)]. *)
Definition sublist (b e : nat) (l : list A) : list A := firstn (e - b) (skipn b l).

Fixpoint upd (l : list A) (i : nat) (x : A) : list A :=
  match l, i with
  | [], _ => []
  | _ :: r, 0 => x :: r
  | y :: r, S i => y :: upd r i x
  end.

(** [std::copy(first, first + cnt, d_first)], element by element from the
    front; reading or writing outside the array is undefined. *)
Fixpoint copy_fwd (arr : list A) (src dst cnt : nat) : option (list A) :=
  match cnt with
  | 0 => Some arr
  | S c =>
    match nth_error arr src with
    | None => None
    | Some x =>
      if dst <? length arr then copy_fwd (upd arr dst x) (S src) (S dst) c
      else None
    end
  end.

(** Chunk [i] is [[part_size * i, part_size * (i + 1))]; the last one ends at
    [end]. *)
Definition chunk_bounds (n part_size threads_amount : nat) : list (nat * nat) :=
  map (fun i => (part_size * i,
                 if i =? threads_amount - 1 then n else part_size * (i + 1)))
      (seq 0 threads_amount).

(** The merge loop [for (size_t i = 1; i < threads_amount; i++)]: [rest]
    lists, for chunks [1 .. threads_amount - 1], the chunk's begin and the
    new end returned by its thread. *)
Fixpoint merge_chunks (p : A -> A -> bool) (arr : list A) (last : nat)
    (rest : list (nat * nat)) : option (list A * nat) :=
  match rest with
  | [] => Some (arr, last)
  | (b, l_end) :: rest' =>
    let prev := if last =? 0 then None else nth_error arr (last - 1) in
    match nth_error arr b, prev with
    | Some x, Some y =>
      (* if (p( *_begin, *(last - 1))) _begin++; *)
      let b' := if p x y then S b else b in
      if l_end <? b' then None
      else
        match copy_fwd arr b' last (l_end - b') with
        | None => None
        | Some arr' => merge_chunks p arr' (last + (l_end - b')) rest'
        end
    | _, _ => None
    end
  end.

(** [mt::unique(begin, end, p, threads_amount)]: the new content of the
    range and the offset of the returned iterator. The threads of the first
    loop work on disjoint chunks, so they are run one after the other. *)
Definition unique (p : A -> A -> bool) (arr : list A) (threads_amount : nat)
    : option (list A * nat) :=
  let n := length arr in
  if threads_amount =? 0 then None  (* [std::distance(begin, end) / 0] *)
  else
    let part_size := n / threads_amount in
    let chunks := chunk_bounds n part_size threads_amount in
    let results := map (fun '(b, e) => std_unique (sublist b e arr)) chunks in
    let arr1 := concat (map fst results) in
    let ends := map (fun '((b, _), (_, k)) => b + k) (combine chunks results) in
    match ends with
    | [] => None
    | last0 :: ends' =>
      merge_chunks p arr1 last0 (combine (map fst (tl chunks)) ends')
    end.

(** What the call does on the range besides its result: the number of
    [std::async] executions the loop of lines 64-69 launches, the number of
    elements in the chunks handed to them ([std::unique(_begin, _end)]
    touches only elements of its own chunk, so none of an empty one), and
    the number of iterations of the merge loop of lines 72-78 (each
    dereferences [*_begin] and [*(last - 1)]). [None]: the division by zero
    of line 62 comes first. *)
Definition unique_work (arr : list A) (threads_amount : nat)
    : option (nat * nat * nat) :=
  if threads_amount =? 0 then None
  else
    let n := length arr in
    let chunks := chunk_bounds n (n / threads_amount) threads_amount in
    Some (length chunks, list_sum (map (fun '(b, e) => e - b) chunks),
          length (tl chunks)).

End ParallelUnique.

(** An equivalence on [nat] coarser than [==]: same decade. *)
Definition same_decade (a b : nat) : bool := Nat.eqb (a / 10) (b / 10).


Example unique_ex1 :
  option_map (fun r => firstn (snd r) (fst r))
    (unique Nat.eqb Nat.eqb [0; 0; 1; 1; 1; 2; 3; 3; 3; 3; 4] 3) =
  Some [0; 1; 2; 3; 4].
Proof. reflexivity. Qed.

Example unique_ex2 :
  option_map (fun r => firstn (snd r) (fst r))
    (unique Nat.eqb Nat.eqb [5; 5; 5; 5; 5; 5; 5] 3) = Some [5].
Proof. reflexivity. Qed.

(** Scenario D of the spec: each value of [[0, 256)] eight times. *)
Example unique_scenario_d :
  option_map (fun r => firstn (snd r) (fst r))
    (unique Nat.eqb Nat.eqb (flat_map (fun v => repeat v 8) (seq 0 256)) 4) =
  Some (seq 0 256).
Proof. vm_compute. reflexivity. Qed.

(** C2: for a predicate [p] coarser than [==] the chunk threads ignore [p]
    ([std::unique(_begin, _end)] compares with [==]) while the merge uses
    it. On the range [[10; 11]], sorted and with one [same_decade] class,
    one thread keeps both elements, and the result depends on the thread
    count: two threads keep one. *)
Theorem unique_chunk_ignores_predicate :
  unique Nat.eqb same_decade [10; 11] 1 = Some ([10; 11], 2) /\
  unique Nat.eqb same_decade [10; 11] 2 = Some ([10; 11], 1).
Proof. split; reflexivity. Qed.

Lemma chunk_bounds_length : forall n ps t, length (chunk_bounds n ps t) = t.
Proof. intros. unfold chunk_bounds. now rewrite length_map, length_seq. Qed.

Lemma chunk_bounds_empty : forall ps t, ps = 0 -> chunk_bounds 0 ps t = repeat (0, 0) t.
Proof.
  intros ps t ->. unfold chunk_bounds.
  rewrite (map_ext _ (fun _ => (0, 0))); [|intros i; destruct (i =? t - 1); reflexivity].
  rewrite map_const, length_seq. reflexivity.
Qed.

Lemma list_sum_empty_chunks : forall t,
  list_sum (map (fun '(b, e) => e - b) (repeat (0, 0) t)) = 0.
Proof. induction t as [|t IH]; [reflexivity|exact IH]. Qed.

(** C7 (counterexample): on an empty range with one thread the call
    returns [begin] but still launches one [std::async] execution. *)
Theorem unique_empty_launches_thread :
  unique Nat.eqb Nat.eqb [] 1 = Some ([], 0) /\
  unique_work (@nil nat) 1 = Some (1, 0, 0).
Proof. split; reflexivity. Qed.

(** C7 (amended): [mt::unique] does not special-case an empty range. With
    one thread it returns [begin] (a zero-length result), hands its single
    [std::async] execution an empty chunk and runs no merge iteration, so
    no element is accessed; with [threads_amount >= 1] threads it launches
    [threads_amount] executions on empty chunks and runs
    [threads_amount - 1] merge iterations; with two or more threads the
    first merge iteration dereferences outside the empty range, and with
    none the division by zero comes first: undefined behaviour. *)
Theorem unique_empty_range {A : Type} (eqA p : A -> A -> bool) :
  unique eqA p [] 1 = Some ([], 0) /\
  unique_work (@nil A) 1 = Some (1, 0, 0) /\
  (forall threads_amount, 1 <= threads_amount ->
     unique_work (@nil A) threads_amount = Some (threads_amount, 0, threads_amount - 1)) /\
  (forall threads_amount, 2 <= threads_amount -> unique eqA p [] threads_amount = None) /\
  unique eqA p [] 0 = None /\ unique_work (@nil A) 0 = None.
Proof.
  split; [reflexivity|]. split; [reflexivity|]. split; [|split; [|split; reflexivity]].
  - intros t Ht. unfold unique_work. destruct t as [|t]; [lia|]. cbv zeta.
    change (length (@nil A)) with 0.
    rewrite (chunk_bounds_empty (0 / S t)) by reflexivity.
    rewrite list_sum_empty_chunks. simpl tl. rewrite !repeat_length.
    simpl. f_equal. f_equal. lia.
  - intros t Ht. destruct t as [|[|k]]; [lia|lia|]. unfold unique.
    change (length (@nil A)) with 0.
    rewrite (chunk_bounds_empty (0 / S (S k))) by reflexivity.
    cbn. destruct (concat _) as [|x r]; reflexivity.
Qed.

(** Threads [3] on the empty range: three launches, two merge iterations,
    undefined behaviour in the first of them. *)
Lemma unique_empty_range_witness :
  unique_work (@nil nat) 3 = Some (3, 0, 2) /\ unique Nat.eqb Nat.eqb [] 3 = None.
Proof.
  destruct (unique_empty_range Nat.eqb Nat.eqb) as (_ & _ & H1 & H2 & _).
  split; [apply H1|apply H2]; lia.
Defined.

(** *** The default predicate: [mt::unique(first, last, threads_amount)] *)

Section UniqueEquiv.

Context {A : Type}.
Variable eqA : A -> A -> bool.







(** What [std::unique] keeps has no two neighbours equal under [==]. *)
Lemma unique_from_sorted : forall l k,
  Sorted (fun a b => eqA a b = false) (k :: unique_from eqA k l).
Proof.
  induction l as [|x r IH]; intros k; simpl; [repeat constructor|].
  destruct (eqA k x) eqn:E; [apply IH|].
  constructor; [apply IH|constructor; exact E].
Qed.

Lemma survivors_sorted : forall l, Sorted (fun a b => eqA a b = false) (survivors eqA l).
Proof. intros [|x r]; [constructor|apply unique_from_sorted]. Qed.














Hypothesis eqA_sym : forall a b, eqA a b = true -> eqA b a = true.
Hypothesis eqA_trans : forall a b c, eqA a b = true -> eqA b c = true -> eqA a c = true.




End UniqueEquiv.




(** With one thread the predicate is never called: the whole range goes
    through one [std::unique] with [==]. *)
Theorem unique_one_thread {A : Type} (eqA p : A -> A -> bool) (arr : list A) :
  unique eqA p arr 1 = Some (std_unique eqA arr).
Proof.
  unfold unique, chunk_bounds. cbn - [std_unique sublist Nat.div].
  rewrite Nat.mul_0_r. unfold sublist. rewrite Nat.sub_0_r. cbn [skipn].
  rewrite firstn_all. destruct (std_unique eqA arr). cbn. rewrite app_nil_r. reflexivity.
Qed.

End Unique.

(* ------------------------------------------------------------------ *)
(** ** [mt::thread_pool] (src/thread_pool.hpp) *)

Module Pool.

#[local] Set Warnings "-register-all".

(** A task in the queue: the [std::bind] closure of [push(f, args...)]. It
    carries the identity of the call, the argument values bound (copied) at
    submission, the tasks its body pushes to the same pool, and whether its
    body throws after those pushes. *)
Inductive task : Type :=
| mk_task (id : nat) (args : list nat) (children : list task) (throws : bool).

Definition task_id (t : task) : nat := let '(mk_task i _ _ _) := t in i.
Definition task_args (t : task) : list nat := let '(mk_task _ a _ _) := t in a.
Definition task_children (t : task) : list task := let '(mk_task _ _ c _) := t in c.
Definition task_throws (t : task) : bool := let '(mk_task _ _ _ e) := t in e.

(** Program point of a worker thread in [worker()]. *)
Inductive wstate : Type :=
| WLock                         (* next: acquire [queue_mutex], [active++] *)
| WRun (t : task) (todo : list task)  (* in [task()], [todo] still to push *)
| WRelock                       (* next: [queue_mutex.lock()] after [task()] *)
| WBlocked                      (* in [queue_cv.wait(lock)] *)
| WExit                         (* returned from [worker()] *)
| WCrashed.                     (* an exception escaped [task()] and [worker()] *)

(** The calling thread runs a script of pool operations. *)
Inductive op : Type :=
| OPush (t : task)              (* [pool.push(...)] *)
| OWait                         (* [pool.wait()] *)
| ODestroy.                     (* [pool.~thread_pool()] *)

(** Program point of the calling thread; [k] is where [wait()] returns to. *)
Inductive mstate : Type :=
| MRun (ops : list op)
| MWaitBlocked (k : mstate)     (* in [wait_cv.wait(lock)] *)
| MWaitWoken (k : mstate)       (* woken, next: reacquire the mutex, return *)
| MShutdown                     (* destructor after its [wait()] *)
| MMembers                      (* destructor body done: members destroyed *)
| MJoin                         (* [~std::vector<std::future<void>>] *)
| MDone.

Record pool : Type := mk_pool {
  queue : list task;            (* [task_queue] *)
  active : nat;                 (* [active] *)
  shutdown : bool;              (* [shutdown_request] *)
  alive : bool;                 (* mutex, condition variables, queue not destroyed *)
  workers : list wstate;
  main : mstate;
  log : list (nat * list nat);  (* executions: task id, argument values seen *)
  waits : list (nat * nat);     (* at each return of [wait()]: queue length, active *)
  ub : bool                     (* undefined behaviour has happened *)
}.

Fixpoint upd {X : Type} (l : list X) (i : nat) (x : X) : list X :=
  match l, i with
  | [], _ => []
  | _ :: r, 0 => x :: r
  | y :: r, S i => y :: upd r i x
  end.

Definition set_main (st : pool) (m : mstate) : pool :=
  mk_pool (queue st) (active st) (shutdown st) (alive st) (workers st) m
          (log st) (waits st) (ub st).

Definition set_workers (st : pool) (ws : list wstate) : pool :=
  mk_pool (queue st) (active st) (shutdown st) (alive st) ws (main st)
          (log st) (waits st) (ub st).

Definition set_ub (st : pool) : pool :=
  mk_pool (queue st) (active st) (shutdown st) (alive st) (workers st) (main st)
          (log st) (waits st) true.

(** [wait_cv.notify_all()]: the only thread that waits on [wait_cv] is the
    caller of [wait()]. *)
Definition wake_main (m : mstate) : mstate :=
  match m with MWaitBlocked k => MWaitWoken k | _ => m end.

(** [queue_cv.notify_all()]. *)
Definition notify_all_workers (ws : list wstate) : list wstate :=
  map (fun w => match w with WBlocked => WLock | _ => w end) ws.

(** [queue_cv.notify_one()]: wakes one blocked worker, if there is one. *)
Inductive wake_one : list wstate -> list wstate -> Prop :=
| wake_none : forall ws, ~ In WBlocked ws -> wake_one ws ws
| wake_at : forall ws i, nth_error ws i = Some WBlocked -> wake_one ws (upd ws i WLock).

(** [add(task)] under the mutex: enqueue, [queue_cv.notify_one()]. *)
Definition enqueue (st : pool) (t : task) (ws : list wstate) (m : mstate) : pool :=
  mk_pool (queue st ++ [t]) (active st) (shutdown st) (alive st) ws m
          (log st) (waits st) (ub st).

(** The calling thread has returned from the destructor's [wait()]: from
    then on it writes the plain ([volatile], not atomic) [shutdown_request]
    (or has written it) without holding [queue_mutex], and it performs no
    further operation on the mutex. A worker's read of the flag is then
    ordered with that write by no happens-before edge: a data race. *)
Definition unsynced (m : mstate) : bool :=
  match m with MShutdown | MMembers | MJoin | MDone => true | _ => false end.

(** Worker [w], holding the mutex, at [while (!task_queue.empty())]: either
    it takes the front task and releases the mutex to run it, or it leaves
    the inner loop: [active--], [wait_cv.notify_all()] when [active] is zero,
    then [return] on [shutdown_request] or [queue_cv.wait(lock)]. The read of
    [shutdown_request] is undefined behaviour when it races with the
    destructor's write ([unsynced]); this covers every run in which the
    destructor writes the flag and notifies between a worker's read of
    [false] and its [queue_cv.wait(lock)] (the lost wake-up, after which
    the worker waits on a destroyed condition variable), so the model needs
    no step between the two. *)
Definition loop_check (w : nat) (st : pool) : pool :=
  match queue st with
  | t :: q =>
    mk_pool q (active st) (shutdown st) (alive st)
            (upd (workers st) w (WRun t (task_children t))) (main st)
            (log st ++ [(task_id t, task_args t)]) (waits st) (ub st)
  | [] =>
    let a := active st - 1 in
    mk_pool [] a (shutdown st) (alive st)
            (upd (workers st) w (if shutdown st then WExit else WBlocked))
            (if a =? 0 then wake_main (main st) else main st)
            (log st) (waits st) (ub st || unsynced (main st))
  end.

(** [wait()] under the mutex: [if (!task_queue.empty() || active > 0)
    wait_cv.wait(lock);] then return to [k]. *)
Definition wait_check (st : pool) (k : mstate) : pool :=
  match queue st, active st with
  | [], 0 =>
    mk_pool (queue st) (active st) (shutdown st) (alive st) (workers st) k
            (log st) (waits st ++ [(0, 0)]) (ub st)
  | _, _ => set_main st (MWaitBlocked k)
  end.

(** One atomic step of one thread. Code between two mutex operations runs
    as one step: it only touches state guarded by the mutex, or none. A
    thread blocked in [std::condition_variable::wait] may wake up spuriously. *)
Inductive step : pool -> pool -> Prop :=
| s_lock : forall st w,
    nth_error (workers st) w = Some WLock -> alive st = true ->
    step st (loop_check w (mk_pool (queue st) (active st + 1) (shutdown st)
              (alive st) (workers st) (main st) (log st) (waits st) (ub st)))
| s_relock : forall st w,
    nth_error (workers st) w = Some WRelock -> alive st = true ->
    step st (loop_check w st)
| s_lock_destroyed : forall st w,
    (nth_error (workers st) w = Some WLock \/
     nth_error (workers st) w = Some WRelock) ->
    alive st = false -> step st (set_ub st)
| s_push_child : forall st w t c todo ws,
    nth_error (workers st) w = Some (WRun t (c :: todo)) -> alive st = true ->
    wake_one (upd (workers st) w (WRun t todo)) ws ->
    step st (enqueue st c ws (main st))
| s_finish : forall st w t,
    nth_error (workers st) w = Some (WRun t []) -> task_throws t = false ->
    step st (set_workers st (upd (workers st) w WRelock))
(* An exception escaping [task()] leaves [worker()]; unwinding runs
   [~unique_lock], which unlocks [queue_mutex]: the lock still owns it,
   but the worker released it by [queue_mutex.unlock()] before [task()],
   so the mutex is unlocked by a thread that does not hold it. *)
| s_throw : forall st w t,
    nth_error (workers st) w = Some (WRun t []) -> task_throws t = true ->
    step st (set_ub (set_workers st (upd (workers st) w WCrashed)))
| s_worker_spurious : forall st w,
    nth_error (workers st) w = Some WBlocked ->
    step st (set_workers st (upd (workers st) w WLock))
| m_push : forall st t ops ws,
    main st = MRun (OPush t :: ops) -> alive st = true ->
    wake_one (workers st) ws ->
    step st (enqueue st t ws (MRun ops))
| m_wait : forall st ops,
    main st = MRun (OWait :: ops) -> step st (wait_check st (MRun ops))
| m_destroy : forall st ops,
    main st = MRun (ODestroy :: ops) -> step st (wait_check st MShutdown)
| m_spurious : forall st k,
    main st = MWaitBlocked k -> step st (set_main st (MWaitWoken k))
| m_woken : forall st k,
    main st = MWaitWoken k -> alive st = true ->
    step st (mk_pool (queue st) (active st) (shutdown st) (alive st)
              (workers st) k (log st)
              (waits st ++ [(length (queue st), active st)]) (ub st))
| m_shutdown : forall st,
    main st = MShutdown ->
    step st (mk_pool (queue st) (active st) true (alive st)
              (notify_all_workers (workers st)) MMembers
              (log st) (waits st) (ub st))
| m_members : forall st,
    main st = MMembers ->
    step st (mk_pool (queue st) (active st) (shutdown st) false
              (workers st) MJoin (log st) (waits st) (ub st))
| m_join : forall st,
    main st = MJoin -> Forall (fun w => w = WExit \/ w = WCrashed) (workers st) ->
    step st (set_main st MDone).

Definition reachable : pool -> pool -> Prop := clos_refl_trans _ step.

(** [thread_pool pool(threads_amount)] followed by the script [ops]; every
    worker thread starts by constructing its [std::unique_lock]. *)
Definition init (threads_amount : nat) (ops : list op) : pool :=
  mk_pool [] 0 false true (repeat WLock threads_amount) (MRun ops) [] [] false.

(** *** Tokens: who still owes an execution *)

(** The executions a task stands for: its own, then those of the tasks its
    body pushes. *)
Fixpoint task_tokens (t : task) : list (nat * list nat) :=
  match t with
  | mk_task i a cs _ => (i, a) :: concat (map task_tokens cs)
  end.

Definition forest_tokens (ts : list task) : list (nat * list nat) :=
  concat (map task_tokens ts).

Definition op_tokens (o : op) : list (nat * list nat) :=
  match o with OPush t => task_tokens t | _ => [] end.

Definition script_tokens (ops : list op) : list (nat * list nat) :=
  concat (map op_tokens ops).












(** Workers that have done [active++] and not yet the matching [active--]:
    inside the inner loop, or ended by an exception escaping [task()]. *)
Definition counted (w : wstate) : bool :=
  match w with WRun _ _ | WRelock | WCrashed => true | _ => false end.

Definition count_active (ws : list wstate) : nat := length (filter counted ws).

(** *** Lemmas on [upd], [wake_one] and tokens *)


Lemma nth_error_upd_same {X} : forall (l : list X) i x y,
  nth_error l i = Some y -> nth_error (upd l i x) i = Some x.
Proof.
  induction l as [|z r IH]; intros [|i] x y H; simpl in *; try discriminate; eauto.
Qed.

Lemma nth_error_upd_other {X} : forall (l : list X) i j x,
  i <> j -> nth_error (upd l i x) j = nth_error l j.
Proof.
  induction l as [|z r IH]; intros [|i] [|j] x H; simpl; auto; try lia.
  all: apply IH; lia.
Qed.






Lemma wake_one_nth : forall ws ws' i x, wake_one ws ws' ->
  nth_error ws i = Some x -> x <> WBlocked -> nth_error ws' i = Some x.
Proof.
  intros ws ws' i x H Hi Hx. destruct H as [ws _|ws j Hj]; auto.
  destruct (Nat.eq_dec j i) as [<-|Hne].
  - congruence.
  - rewrite nth_error_upd_other; auto.
Qed.






Lemma task_tokens_eq : forall t,
  task_tokens t = (task_id t, task_args t) :: forest_tokens (task_children t).
Proof. intros []; reflexivity. Qed.


Lemma In_nth_error_ex {X} : forall (l : list X) x, In x l -> exists i, nth_error l i = Some x.
Proof. intros l x H. apply In_nth_error in H. exact H. Qed.















Lemma push_tokens : forall ops0 t, In (OPush t) ops0 ->
  In (task_id t, task_args t) (script_tokens ops0).
Proof.
  intros ops0 t H. unfold script_tokens. apply in_concat.
  exists (op_tokens (OPush t)). split; [apply in_map; exact H|].
  simpl. rewrite task_tokens_eq. left. reflexivity.
Qed.

Lemma count_upd : forall ws i x y, nth_error ws i = Some y ->
  count_active (upd ws i x) + (if counted y then 1 else 0) =
  count_active ws + (if counted x then 1 else 0).
Proof.
  unfold count_active.
  induction ws as [|z r IH]; intros [|i] x y H; simpl in *; try discriminate.
  - inversion H; subst. destruct (counted x), (counted y); simpl; lia.
  - specialize (IH i x y H). destruct (counted z); simpl; lia.
Qed.

Lemma count_pos : forall ws i y, nth_error ws i = Some y -> counted y = true ->
  1 <= count_active ws.
Proof.
  unfold count_active.
  induction ws as [|z r IH]; intros [|i] y H Hc; simpl in *; try discriminate.
  - inversion H; subst. rewrite Hc. simpl. lia.
  - specialize (IH i y H Hc). destruct (counted z); simpl; lia.
Qed.

Lemma wake_one_count : forall ws ws', wake_one ws ws' ->
  count_active ws' = count_active ws.
Proof.
  intros ws ws' [ws0 _|ws0 i Hi]; auto.
  pose proof (count_upd ws0 i WLock WBlocked Hi) as C. simpl in C. lia.
Qed.

Lemma notify_count : forall ws, count_active (notify_all_workers ws) = count_active ws.
Proof.
  unfold count_active, notify_all_workers.
  induction ws as [|w r IH]; simpl; auto. destruct w; simpl; auto.
Qed.

(** [active] counts the workers between their [active++] and [active--]. *)
Lemma step_active : forall st st', step st st' ->
  active st = count_active (workers st) -> active st' = count_active (workers st').
Proof.
  intros st st' Hs Ha.
  destruct Hs as [st w Hw _|st w Hw _|st w _ _|st w t c todo ws Hw _ Hwk
                 |st w t Hw _|st w t Hw _|st w Hw|st t ops ws _ _ Hwk
                 |st ops _|st ops _|st k _|st k _ _|st _|st _|st _ _]; simpl; auto.
  - unfold loop_check. simpl. destruct (queue st) as [|t q]; simpl.
    + pose proof (count_upd (workers st) w (if shutdown st then WExit else WBlocked) _ Hw) as C.
      destruct (shutdown st); simpl in C; lia.
    + pose proof (count_upd (workers st) w (WRun t (task_children t)) _ Hw) as C.
      simpl in C. lia.
  - unfold loop_check. destruct (queue st) as [|t q]; simpl.
    + pose proof (count_upd (workers st) w (if shutdown st then WExit else WBlocked) _ Hw) as C.
      destruct (shutdown st); simpl in C; lia.
    + pose proof (count_upd (workers st) w (WRun t (task_children t)) _ Hw) as C.
      simpl in C. lia.
  - rewrite (wake_one_count _ _ Hwk).
    pose proof (count_upd (workers st) w (WRun t todo) _ Hw) as C. simpl in C. lia.
  - pose proof (count_upd (workers st) w WRelock _ Hw) as C. simpl in C. lia.
  - pose proof (count_upd (workers st) w WCrashed _ Hw) as C. simpl in C. lia.
  - pose proof (count_upd (workers st) w WLock _ Hw) as C. simpl in C. lia.
  - rewrite (wake_one_count _ _ Hwk). exact Ha.
  - unfold wait_check. destruct (queue st), (active st) eqn:E; simpl; auto; lia.
  - unfold wait_check. destruct (queue st), (active st) eqn:E; simpl; auto; lia.
  - rewrite notify_count. exact Ha.
Qed.

Lemma reachable_active : forall st st', reachable st st' ->
  active st = count_active (workers st) -> active st' = count_active (workers st').
Proof. intros st st' H. induction H; eauto using step_active. Qed.

Lemma neq_of_nth : forall ws (w w' : nat) (x y : wstate),
  nth_error ws w = Some x -> nth_error ws w' = Some y -> x <> y -> w' <> w.
Proof. intros ws w w' x y Hx Hy Hxy ->. congruence. Qed.

Ltac other_worker Hc Hw :=
  rewrite nth_error_upd_other; [exact Hc|eapply neq_of_nth; [exact Hc|exact Hw|discriminate]].

(** A crashed worker stays crashed. *)
Lemma step_keeps_crashed : forall st st' w, step st st' ->
  nth_error (workers st) w = Some WCrashed -> nth_error (workers st') w = Some WCrashed.
Proof.
  intros st st' w0 Hs Hc.
  destruct Hs as [st w Hw _|st w Hw _|st w _ _|st w t c todo ws Hw _ Hwk
                 |st w t Hw _|st w t Hw _|st w Hw|st t ops ws _ _ Hwk
                 |st ops _|st ops _|st k _|st k _ _|st _|st _|st _ _]; simpl; auto.
  - unfold loop_check. simpl. destruct (queue st); simpl; other_worker Hc Hw.
  - unfold loop_check. destruct (queue st); simpl; other_worker Hc Hw.
  - eapply wake_one_nth; [exact Hwk| |discriminate]. other_worker Hc Hw.
  - other_worker Hc Hw.
  - other_worker Hc Hw.
  - other_worker Hc Hw.
  - eapply wake_one_nth; [exact Hwk|exact Hc|discriminate].
  - unfold wait_check. destruct (queue st), (active st); exact Hc.
  - unfold wait_check. destruct (queue st), (active st); exact Hc.
  - unfold notify_all_workers. rewrite nth_error_map, Hc. reflexivity.
Qed.

Lemma reachable_keeps_crashed : forall st st' w, reachable st st' ->
  nth_error (workers st) w = Some WCrashed -> nth_error (workers st') w = Some WCrashed.
Proof. intros st st' w H. induction H; eauto using step_keeps_crashed. Qed.

Lemma all_crashed_nth : forall ws w x, Forall (fun y => y = WCrashed) ws ->
  nth_error ws w = Some x -> x = WCrashed.
Proof.
  intros ws w x H Hw. rewrite Forall_forall in H. apply H. eapply nth_error_In; eauto.
Qed.

(** Once every worker has crashed, no task is executed any more. *)
Lemma step_all_crashed : forall st st', step st st' ->
  Forall (fun y => y = WCrashed) (workers st) ->
  log st' = log st /\ Forall (fun y => y = WCrashed) (workers st').
Proof.
  intros st st' Hs H.
  destruct Hs as [st w Hw _|st w Hw _|st w Hw _|st w t c todo ws Hw _ Hwk
                 |st w t Hw _|st w t Hw _|st w Hw|st t ops ws _ _ Hwk
                 |st ops _|st ops _|st k _|st k _ _|st _|st _|st _ _]; simpl.
  - pose proof (all_crashed_nth _ _ _ H Hw). discriminate.
  - pose proof (all_crashed_nth _ _ _ H Hw). discriminate.
  - destruct Hw as [Hw|Hw]; pose proof (all_crashed_nth _ _ _ H Hw); discriminate.
  - pose proof (all_crashed_nth _ _ _ H Hw). discriminate.
  - pose proof (all_crashed_nth _ _ _ H Hw). discriminate.
  - pose proof (all_crashed_nth _ _ _ H Hw). discriminate.
  - pose proof (all_crashed_nth _ _ _ H Hw). discriminate.
  - destruct Hwk as [ws _|ws i Hi]; [auto|].
    pose proof (all_crashed_nth _ _ _ H Hi). discriminate.
  - unfold wait_check. destruct (queue st), (active st); simpl; auto.
  - unfold wait_check. destruct (queue st), (active st); simpl; auto.
  - auto.
  - auto.
  - split; auto. unfold notify_all_workers. apply Forall_map.
    eapply Forall_impl; [|exact H]. intros a ->. reflexivity.
  - auto.
  - auto.
Qed.

Lemma reachable_all_crashed : forall st st', reachable st st' ->
  Forall (fun y => y = WCrashed) (workers st) ->
  log st' = log st /\ Forall (fun y => y = WCrashed) (workers st').
Proof.
  intros st st' H. induction H as [x y Hs|x|x y z _ IH1 _ IH2]; intros Hx.
  - apply step_all_crashed; auto.
  - auto.
  - destruct (IH1 Hx) as [E1 F1]. destruct (IH2 F1) as [E2 F2].
    split; [congruence|exact F2].
Qed.

(** A worker in a throwing task body with nothing left to push has one move:
    the exception leaves [task()] and [worker()]. *)
Lemma step_from_throwing : forall st st' w t,
  nth_error (workers st) w = Some (WRun t []) -> task_throws t = true -> step st st' ->
  nth_error (workers st') w = Some (WRun t []) \/ nth_error (workers st') w = Some WCrashed.
Proof.
  intros st st' w0 t0 Hc Ht Hs.
  destruct Hs as [st w Hw _|st w Hw _|st w _ _|st w t c todo ws Hw _ Hwk
                 |st w t Hw Ht'|st w t Hw _|st w Hw|st t ops ws _ _ Hwk
                 |st ops _|st ops _|st k _|st k _ _|st _|st _|st _ _]; simpl.
  - left. unfold loop_check. simpl. destruct (queue st); simpl; other_worker Hc Hw.
  - left. unfold loop_check. destruct (queue st); simpl; other_worker Hc Hw.
  - left. exact Hc.
  - left. eapply wake_one_nth; [exact Hwk| |discriminate].
    rewrite nth_error_upd_other; [exact Hc|].
    intros ->. rewrite Hc in Hw. discriminate.
  - left. rewrite nth_error_upd_other; [exact Hc|].
    intros ->. rewrite Hc in Hw. inversion Hw; subst. congruence.
  - destruct (Nat.eq_dec w w0) as [->|Hne].
    + right. eapply nth_error_upd_same; eauto.
    + left. rewrite nth_error_upd_other; auto.
  - left. other_worker Hc Hw.
  - left. eapply wake_one_nth; [exact Hwk|exact Hc|discriminate].
  - left. unfold wait_check. destruct (queue st), (active st); exact Hc.
  - left. unfold wait_check. destruct (queue st), (active st); exact Hc.
  - left. exact Hc.
  - left. exact Hc.
  - left. unfold notify_all_workers. rewrite nth_error_map, Hc. reflexivity.
  - left. exact Hc.
  - left. exact Hc.
Qed.

(** *** Undefined behaviour of a crash *)

Lemma nth_error_upd_inv {X} : forall (l : list X) i j x y,
  nth_error (upd l i x) j = Some y -> (j = i /\ y = x) \/ nth_error l j = Some y.
Proof.
  induction l as [|z r IH]; intros [|i] [|j] x y H; simpl in *; auto.
  - left. split; congruence.
  - destruct (IH _ _ _ _ H) as [[-> ->]|H']; auto.
Qed.

Lemma wake_one_inv : forall ws ws' j y, wake_one ws ws' ->
  nth_error ws' j = Some y -> y = WLock \/ nth_error ws j = Some y.
Proof.
  intros ws ws' j y H Hj. destruct H as [ws _|ws i _]; auto.
  destruct (nth_error_upd_inv _ _ _ _ _ Hj) as [[_ ->]|E]; auto.
Qed.

Lemma loop_check_crash : forall st w j,
  nth_error (workers (loop_check w st)) j = Some WCrashed ->
  nth_error (workers st) j = Some WCrashed.
Proof.
  intros st w j. unfold loop_check. destruct (queue st); simpl; intros H;
    destruct (nth_error_upd_inv _ _ _ _ _ H) as [[_ E]|E]; auto;
    [destruct (shutdown st)|]; discriminate.
Qed.

Lemma loop_check_ub : forall st w, ub st = true -> ub (loop_check w st) = true.
Proof.
  intros st w H. unfold loop_check. destruct (queue st); simpl; rewrite H; reflexivity.
Qed.

(** Undefined behaviour, once it has happened, stays. *)
Lemma step_ub_mono : forall st st', step st st' -> ub st = true -> ub st' = true.
Proof.
  intros st st' Hs Hu.
  destruct Hs as [st w Hw _|st w Hw _|st w _ _|st w t c todo ws Hw _ Hwk
                 |st w t Hw _|st w t Hw _|st w Hw|st t ops ws _ _ Hwk
                 |st ops _|st ops _|st k _|st k _ _|st _|st _|st _ _];
    try (apply loop_check_ub; exact Hu); try reflexivity; try exact Hu.
  - unfold wait_check. destruct (queue st), (active st); exact Hu.
  - unfold wait_check. destruct (queue st), (active st); exact Hu.
Qed.

Lemma reachable_ub_mono : forall st st', reachable st st' -> ub st = true -> ub st' = true.
Proof.
  intros st st' H. induction H as [x y H|x|x y z _ IH1 _ IH2]; auto.
  apply step_ub_mono; exact H.
Qed.

(** A worker is crashed after a step only if it was before, or the step
    has undefined behaviour. *)
Lemma step_new_crash : forall st st' j, step st st' ->
  nth_error (workers st') j = Some WCrashed ->
  nth_error (workers st) j = Some WCrashed \/ ub st' = true.
Proof.
  intros st st' j Hs Hj.
  destruct Hs as [st w Hw _|st w Hw _|st w _ _|st w t c todo ws Hw _ Hwk
                 |st w t Hw _|st w t Hw _|st w Hw|st t ops ws _ _ Hwk
                 |st ops _|st ops _|st k _|st k _ _|st _|st _|st _ _];
    simpl in Hj.
  - left. exact (loop_check_crash _ _ _ Hj).
  - left. exact (loop_check_crash _ _ _ Hj).
  - left. exact Hj.
  - left. destruct (wake_one_inv _ _ _ _ Hwk Hj) as [E|E]; [discriminate|].
    destruct (nth_error_upd_inv _ _ _ _ _ E) as [[_ E']|E']; [discriminate|exact E'].
  - left. destruct (nth_error_upd_inv _ _ _ _ _ Hj) as [[_ E']|E']; [discriminate|exact E'].
  - right. reflexivity.
  - left. destruct (nth_error_upd_inv _ _ _ _ _ Hj) as [[_ E']|E']; [discriminate|exact E'].
  - left. destruct (wake_one_inv _ _ _ _ Hwk Hj) as [E|E]; [discriminate|exact E].
  - left. unfold wait_check in Hj. destruct (queue st), (active st); exact Hj.
  - left. unfold wait_check in Hj. destruct (queue st), (active st); exact Hj.
  - left. exact Hj.
  - left. exact Hj.
  - left. unfold notify_all_workers in Hj. rewrite nth_error_map in Hj.
    destruct (nth_error (workers st) j) as [[]|]; simpl in Hj; congruence.
  - left. exact Hj.
  - left. exact Hj.
Qed.

(** In a run of a pool, a crashed worker means undefined behaviour has
    happened. *)
Lemma reachable_crash_ub : forall st st', reachable st st' ->
  (In WCrashed (workers st) -> ub st = true) ->
  In WCrashed (workers st') -> ub st' = true.
Proof.
  intros st st' H. induction H as [x y H|x|x y z _ IH1 _ IH2]; auto.
  intros Hx Hy. destruct (In_nth_error_ex _ _ Hy) as [j Hj].
  destruct (step_new_crash _ _ _ H Hj) as [E|E]; [|exact E].
  apply (step_ub_mono _ _ H), Hx, nth_error_In with j, E.
Qed.

Lemma count_repeat_lock : forall n, count_active (repeat WLock n) = 0.
Proof. unfold count_active. induction n; simpl; auto. Qed.

(** *** Concrete runs *)

(** [push(f_with_args, 123, 456)] of the test [test_one_call_with_args]. *)
Definition t_args : task := mk_task 0 [123; 456] [] false.

(** A task whose body throws. *)
Definition t_throw : task := mk_task 0 [] [] true.

Lemma step_reach : forall a b c, step a b -> b = c -> reachable a c.
Proof. intros a b c H <-. apply rt_step. exact H. Qed.

Lemma wake_none_cons : forall ws, forallb (fun w => match w with WBlocked => false | _ => true end) ws = true ->
  wake_one ws ws.
Proof.
  intros ws H. apply wake_none. intros Hin. rewrite forallb_forall in H.
  specialize (H _ Hin). discriminate.
Qed.

Ltac next_step c :=
  eapply rt_trans; [eapply step_reach; [eapply c|reflexivity]|].

Ltac next_step_at c n :=
  eapply rt_trans; [eapply step_reach; [eapply c with (w := n)|reflexivity]|].

Ltac side := first [reflexivity | apply wake_none_cons; reflexivity | left; reflexivity].

(** C3: with one worker that has not yet taken the mutex, the caller pushes a
    task and calls [wait()]; the queue is not empty so it blocks on
    [wait_cv]; a spurious wake-up makes it return ([if], not [while]) with
    the task still queued and not executed. *)
Theorem wait_returns_before_quiescence :
  reachable (init 1 [OPush t_args; OWait])
    (mk_pool [t_args] 0 false true [WLock] (MRun []) [] [(1, 0)] false).
Proof.
  next_step m_push; try side.
  next_step m_wait; try side.
  next_step m_spurious; try side.
  eapply step_reach; [eapply m_woken; side|reflexivity].
Qed.

(** C4: (1) a pool whose worker thread has not yet started is destroyed: the
    destructor's [wait()] returns at once, the flag is set, the body ends
    and the members [queue_mutex] and [task_queue] are destroyed before the
    [std::future] members join the worker, which then locks a destroyed
    mutex: undefined behaviour; (2) with a pushed task, a spurious wake-up in
    the destructor's [wait()] lets it set [shutdown_request] and destroy the
    queue while the task is still pending. *)
Theorem pool_teardown_before_workers_exit :
  reachable (init 1 [ODestroy])
    (mk_pool [] 0 true false [WLock] MJoin [] [(0, 0)] true) /\
  reachable (init 1 [OPush t_args; ODestroy])
    (mk_pool [t_args] 0 true false [WLock] MJoin [] [(1, 0)] false).
Proof.
  split.
  - next_step m_destroy; try side.
    next_step m_shutdown; try side.
    next_step m_members; try side.
    eapply step_reach; [eapply s_lock_destroyed with (w := 0); side|reflexivity].
  - next_step m_push; try side.
    next_step m_destroy; try side.
    next_step m_spurious; try side.
    next_step m_woken; try side.
    next_step m_shutdown; try side.
    eapply step_reach; [eapply m_members; side|reflexivity].
Qed.

(** C5 (counterexample): the exception of a throwing task is not caught:
    run by the only worker, it leaves [task()] and [worker()], and the
    unwinding reaches undefined behaviour ([~unique_lock] unlocks
    [queue_mutex], which the worker does not hold). *)
Theorem task_exception_kills_worker :
  reachable (init 1 [OPush t_throw])
    (mk_pool [] 1 false true [WCrashed] (MRun []) [(0, [])] [] true).
Proof.
  next_step m_push; try side.
  next_step_at s_lock 0; try side.
  eapply step_reach; [eapply s_throw with (w := 0); side|reflexivity].
Qed.

(** C5 (amended): an exception thrown by a task is not caught at the task
    boundary. (1) A worker whose task body throws has one move of its own:
    the exception leaves [task()] and the run loop of [worker()]
    ([WCrashed]); it never reaches [queue_mutex.lock()] again. (2) That move
    is undefined behaviour: unwinding destroys the [std::unique_lock], which
    unlocks [queue_mutex] although the worker released it before [task()].
    (3) A crashed worker stays crashed, and in any run of a pool from a
    state with a crashed worker on, undefined behaviour has happened. *)
Theorem task_failure_ends_worker :
  (forall st w t,
     nth_error (workers st) w = Some (WRun t []) -> task_throws t = true ->
     step st (set_ub (set_workers st (upd (workers st) w WCrashed))) /\
     forall st', step st st' ->
       nth_error (workers st') w = Some (WRun t []) \/
       nth_error (workers st') w = Some WCrashed) /\
  (forall st st' w t, step st st' ->
     nth_error (workers st) w = Some (WRun t []) ->
     nth_error (workers st') w = Some WCrashed -> ub st' = true) /\
  (forall threads_amount ops st st' w,
     reachable (init threads_amount ops) st ->
     nth_error (workers st) w = Some WCrashed -> reachable st st' ->
     nth_error (workers st') w = Some WCrashed /\ ub st' = true).
Proof.
  split; [|split].
  - intros st w t Hw Ht. split.
    + eapply s_throw; eauto.
    + intros st' Hs. eapply step_from_throwing; eauto.
  - intros st st' w t Hs Hw Hc.
    destruct (step_new_crash _ _ _ Hs Hc) as [E|E]; [congruence|exact E].
  - intros nw ops st st' w Hi Hc Hr.
    split; [exact (reachable_keeps_crashed _ _ _ Hr Hc)|].
    apply (reachable_ub_mono st); [exact Hr|].
    apply (reachable_crash_ub (init nw ops)); [exact Hi| |].
    + simpl. intros Hin. apply repeat_spec in Hin. discriminate.
    + apply nth_error_In with w. exact Hc.
Qed.

Lemma task_failure_ends_worker_witness :
  step (mk_pool [] 1 false true [WRun t_throw []] (MRun []) [(0, [])] [] false)
       (mk_pool [] 1 false true [WCrashed] (MRun []) [(0, [])] [] true) /\
  ub (mk_pool [] 1 false true [WCrashed] (MRun []) [(0, [])] [] true) = true /\
  nth_error (workers (mk_pool [] 1 false true [WCrashed] (MRun [OWait])
                        [(0, [])] [] true)) 0 = Some WCrashed.
Proof.
  destruct task_failure_ends_worker as [P1 [P2 P3]].
  pose proof (proj1 (P1 (mk_pool [] 1 false true [WRun t_throw []] (MRun [])
                           [(0, [])] [] false) 0 t_throw eq_refl eq_refl)) as S.
  assert (R : reachable (init 1 [OPush t_throw; OWait])
                (mk_pool [] 1 false true [WCrashed] (MRun [OWait]) [(0, [])] [] true)).
  { next_step m_push; try side.
    next_step_at s_lock 0; try side.
    eapply step_reach; [eapply s_throw with (w := 0); side|reflexivity]. }
  split; [exact S|]. split; [exact (P2 _ _ 0 t_throw S eq_refl eq_refl)|].
  exact (proj1 (P3 1 _ _ _ 0 R eq_refl (rt_refl _ _ _))).
Defined.



(** In every run of a pool, [active] is the number of workers that have
    done [active++] without the matching [active--]: those inside the inner
    loop (taking, running or finishing a task) and those an exception has
    ended. *)
Theorem active_counts_workers : forall threads_amount ops st,
  reachable (init threads_amount ops) st -> active st = count_active (workers st).
Proof.
  intros nw ops st H. apply reachable_active with (init nw ops); [exact H|].
  simpl. rewrite count_repeat_lock. reflexivity.
Qed.

(** One worker; the caller pushes [t_args]; the worker takes it. *)
Lemma active_counts_workers_witness :
  reachable (init 1 [OPush t_args])
    (mk_pool [] 1 false true [WRun t_args []] (MRun []) [(0, [123; 456])] [] false) /\
  active (mk_pool [] 1 false true [WRun t_args []] (MRun []) [(0, [123; 456])] [] false) =
  count_active [WRun t_args []].
Proof.
  assert (R : reachable (init 1 [OPush t_args])
    (mk_pool [] 1 false true [WRun t_args []] (MRun []) [(0, [123; 456])] [] false)).
  { next_step m_push; try side.
    eapply step_reach; [eapply s_lock with (w := 0); side|reflexivity]. }
  split; [exact R|].
  exact (active_counts_workers 1 [OPush t_args] _ R).
Defined.

End Pool.

(* ------------------------------------------------------------------ *)
(** ** Thread counts passed to the three entry points *)

Module Config.

Import Pool.

Lemma step_no_workers : forall st st', step st st' -> workers st = [] ->
  workers st' = [] /\ log st' = log st.
Proof.
  intros st st' Hs H.
  destruct Hs as [st w Hw _|st w Hw _|st w Hw _|st w t c todo ws Hw _ Hwk
                 |st w t Hw _|st w t Hw _|st w Hw|st t ops ws _ _ Hwk
                 |st ops _|st ops _|st k _|st k _ _|st _|st _|st _ _];
    simpl.
  - rewrite H in Hw. destruct w; discriminate.
  - rewrite H in Hw. destruct w; discriminate.
  - rewrite H in Hw. destruct Hw as [Hw|Hw]; destruct w; discriminate.
  - rewrite H in Hw. destruct w; discriminate.
  - rewrite H in Hw. destruct w; discriminate.
  - rewrite H in Hw. destruct w; discriminate.
  - rewrite H in Hw. destruct w; discriminate.
  - destruct Hwk as [ws _|ws i Hi]; [auto|rewrite H, nth_error_nil in Hi; discriminate].
  - unfold wait_check. destruct (queue st), (active st); simpl; auto.
  - unfold wait_check. destruct (queue st), (active st); simpl; auto.
  - auto.
  - auto.
  - rewrite H. auto.
  - auto.
  - auto.
Qed.

Lemma reachable_no_workers : forall st st', reachable st st' -> workers st = [] ->
  workers st' = [] /\ log st' = log st.
Proof.
  intros st st' H. induction H as [x y Hs|x|x y z _ IH1 _ IH2]; intros Hx.
  - apply step_no_workers; auto.
  - auto.
  - destruct (IH1 Hx) as [E1 F1]. destruct (IH2 E1) as [E2 F2].
    split; [exact E2|congruence].
Qed.

Lemma unique_more_threads_than_elements {A : Type} (eqA p : A -> A -> bool) :
  forall arr threads_amount, 0 < length arr < threads_amount ->
  Unique.unique eqA p arr threads_amount = None.
Proof.
  intros arr T [Hpos HT].
  destruct T as [|[|T']]; [lia|lia|].
  unfold Unique.unique. simpl (S (S T') =? 0). cbv zeta.
  rewrite (Nat.div_small (length arr) (S (S T'))) by lia.
  simpl. lazymatch goal with |- (match ?s with Some _ => _ | None => _ end) = _ => destruct s; reflexivity end.
Qed.

(** C6: no thread count is checked. [sort] with [threads_amount = 0], or
    with [2^61] (the [size_t] product with 8 wraps to 0), divides by zero;
    [unique] with [0] divides by zero and with more threads than elements
    reads [*(last - 1)] before [begin]; [thread_pool(0)] is built, accepts a
    [push] and has no worker. *)
Lemma thread_count_not_rejected :
  Sort.chunk_size_of 5 0 = None /\
  Sort.chunk_size_of 5 (2 ^ 61) = None /\
  Unique.unique Nat.eqb Nat.eqb [1; 2] 0 = None /\
  Unique.unique Nat.eqb Nat.eqb [1; 2] 3 = None /\
  reachable (init 0 [OPush t_args])
    (mk_pool [t_args] 0 false true [] (MRun []) [] [] false).
Proof.
  split; [reflexivity|]. split; [reflexivity|]. split; [reflexivity|].
  split; [reflexivity|].
  eapply step_reach; [eapply m_push; [reflexivity|reflexivity|apply wake_none; intros []]
                     |reflexivity].
Qed.

(** C6 (amended): the thread count is not validated. In [sort] a count
    whose product with 8 is 0 modulo [2^64] (0, [2^61], ...) is a division
    by zero; in [unique] 0 is a division by zero and a count above the
    length of a non-empty range makes the merge step read before [begin];
    [thread_pool(0)] is accepted, starts no worker and never executes a
    task pushed to it. *)
Theorem thread_count_unchecked :
  (forall n k, ((k * 8) mod Sort.size_max = 0)%N -> Sort.chunk_size_of n k = None) /\
  (forall A (eqA p : A -> A -> bool) arr, Unique.unique eqA p arr 0 = None) /\
  (forall A (eqA p : A -> A -> bool) arr threads_amount,
     0 < length arr < threads_amount -> Unique.unique eqA p arr threads_amount = None) /\
  (forall ops st, reachable (init 0 ops) st -> workers st = [] /\ log st = []).
Proof.
  split; [|split; [|split]].
  - intros n k H. unfold Sort.chunk_size_of, Sort.div_size. rewrite H. reflexivity.
  - intros A eqA p arr. reflexivity.
  - intros A eqA p. apply unique_more_threads_than_elements.
  - intros ops st H. exact (reachable_no_workers _ _ H eq_refl).
Qed.

Lemma thread_count_unchecked_witness :
  ((2 ^ 61 * 8) mod Sort.size_max = 0)%N /\ Sort.chunk_size_of 5 (2 ^ 61) = None /\
  0 < length [1; 2] < 3 /\ Unique.unique Nat.eqb Nat.eqb [1; 2] 3 = None /\
  log (mk_pool [t_args] 0 false true [] (MRun []) [] [] false) = [].
Proof.
  destruct thread_count_unchecked as [P1 [_ [P3 P4]]].
  assert (H8 : ((2 ^ 61 * 8) mod Sort.size_max = 0)%N) by reflexivity.
  assert (HL : 0 < length [1; 2] < 3) by (simpl; lia).
  assert (R : reachable (init 0 [OPush t_args])
                (mk_pool [t_args] 0 false true [] (MRun []) [] [] false)).
  { eapply step_reach; [eapply m_push; [reflexivity|reflexivity|apply wake_none; intros []]
                       |reflexivity]. }
  split; [exact H8|]. split; [exact (P1 5%N _ H8)|].
  split; [exact HL|]. split; [exact (P3 nat Nat.eqb Nat.eqb [1; 2] 3 HL)|].
  exact (proj2 (P4 _ _ R)).
Defined.


End Config.
